(** * Text-to-audio: text chunking, Q&A lookup, audio post-processing

    A shallow embedding of the pure parts of the text-to-audio repository
    ([src/text_processor.py], [src/audio_processor.py], [src/main.py],
    [examples/qa_system.py]) together with the properties its specification
    states about them.

    Modelling conventions.
    - A Python [str] is a [list ascii]; a character is a code point in
      U+0000..U+00FF (Latin-1), on which [lower], [isspace] and the regular
      expression classes [\s] and [\w] are the ones of CPython's Unicode
      tables.  [str.lower] maps this range into itself.
    - Python integers are [Z]; [len] is [Z.of_nat (length _)].
    - Audio samples are real numbers ([R]): the floating-point arithmetic of
      numpy is idealised as exact arithmetic.
    - Calls that leave the repository (the NLTK sentence tokenizer, the
      speech model, the sound file writer) are parameters of the functions
      that use them. *)

From Stdlib Require Import Ascii String List ZArith Lia Bool Arith.
From Stdlib Require Import DecimalString Reals Lra.
Import ListNotations.

Set Implicit Arguments.

(** ** Python string primitives *)

Module Py.

Definition str := list ascii.

Definition of_string (s : string) : str := list_ascii_of_string s.

Definition code (c : ascii) : nat := nat_of_ascii c.

Definition between (lo hi : nat) (c : ascii) : bool :=
  (lo <=? code c) && (code c <=? hi).

(** [str.isspace] on one character (the table behind [\s], [split()] and
    [strip()]): TAB..CR, FS..US, SPACE, NEL, NBSP. *)
Definition isspace (c : ascii) : bool :=
  between 9 13 c || between 28 32 c || (code c =? 133) || (code c =? 160).

(** Characters with an upper-case form distinct from their lower-case one:
    A-Z and the Latin-1 capitals U+00C0..U+00DE except the times sign. *)
Definition isupper (c : ascii) : bool :=
  between 65 90 c || (between 192 222 c && negb (code c =? 215)).

Definition lower_char (c : ascii) : ascii :=
  if isupper c then ascii_of_nat (code c + 32) else c.

Definition lower (s : str) : str := map lower_char s.

Definition isdigit_ascii (c : ascii) : bool := between 48 57 c.

(** [\w] of the [re] module for [str] patterns: alphanumeric or underscore. *)
Definition isword (c : ascii) : bool :=
  between 48 57 c || between 65 90 c || between 97 122 c || (code c =? 95)
  || (code c =? 170) || (code c =? 178) || (code c =? 179) || (code c =? 181)
  || (code c =? 185) || (code c =? 186) || between 188 190 c
  || between 192 214 c || between 216 246 c || between 248 255 c.

(** [string.punctuation] *)
Definition punctuation : str :=
  of_string "!" ++ [ascii_of_nat 34]
  ++ of_string "#$%&'()*+,-./:;<=>?@[\]^_`{|}~".

Definition ispunct (c : ascii) : bool := existsb (Ascii.eqb c) punctuation.

Definition eqc (a b : ascii) : bool := Ascii.eqb a b.

Definition mem (c : ascii) (cs : str) : bool := existsb (eqc c) cs.

Fixpoint eqs (a b : str) : bool :=
  match a, b with
  | [], [] => true
  | x :: a', y :: b' => eqc x y && eqs a' b'
  | _, _ => false
  end.

(** [s.startswith(p)] *)
Fixpoint startswith (p s : str) : bool :=
  match p, s with
  | [], _ => true
  | _ :: _, [] => false
  | x :: p', y :: s' => eqc x y && startswith p' s'
  end.

(** [p in s] for strings *)
Fixpoint contains (p s : str) : bool :=
  startswith p s ||
  match s with
  | [] => false
  | _ :: s' => contains p s'
  end.

(** [s.lstrip(chars)], [s.rstrip(chars)], [s.strip(chars)] with the set of
    characters given as a predicate. *)
Fixpoint lstrip (f : ascii -> bool) (s : str) : str :=
  match s with
  | [] => []
  | c :: s' => if f c then lstrip f s' else s
  end.

Definition rstrip (f : ascii -> bool) (s : str) : str :=
  rev (lstrip f (rev s)).

Definition strip (f : ascii -> bool) (s : str) : str :=
  rstrip f (lstrip f s).

(** [s.strip()] *)
Definition strip_ws (s : str) : str := strip isspace s.

(** [s[:n]] and [s[n:]] for [0 <= n] *)
Definition slice_to (n : nat) (s : str) : str := firstn n s.
Definition slice_from (n : nat) (s : str) : str := skipn n s.

(** [s.replace(old, new)]: non-overlapping occurrences, leftmost first.
    [skip] counts the characters of a matched occurrence still to drop. *)
Fixpoint replace_from (old new : str) (skip : nat) (s : str) : str :=
  match s with
  | [] => []
  | c :: s' =>
      match skip with
      | S k => replace_from old new k s'
      | O =>
          if startswith old s
          then new ++ replace_from old new (length old - 1) s'
          else c :: replace_from old new 0 s'
      end
  end.

Definition replace (old new s : str) : str :=
  match old with
  | [] => new ++ flat_map (fun c => c :: new) s
  | _ :: _ => replace_from old new 0 s
  end.

(** [sep.join(parts)] *)
Fixpoint join (sep : str) (parts : list str) : str :=
  match parts with
  | [] => []
  | [p] => p
  | p :: rest => p ++ sep ++ join sep rest
  end.

(** Pieces of [s] between maximal runs of separator characters, the empty
    pieces included: [re.split('[...]+', s)]. [cur] is the piece being
    read, reversed; [insep] tells whether the previous character was a
    separator. *)
Fixpoint split_runs (f : ascii -> bool) (cur : str) (insep : bool) (s : str)
  : list str :=
  match s with
  | [] => [rev cur]
  | c :: s' =>
      if f c
      then if insep then split_runs f cur true s'
           else rev cur :: split_runs f [] true s'
      else split_runs f (c :: cur) false s'
  end.

Definition re_split (f : ascii -> bool) (s : str) : list str :=
  split_runs f [] false s.

Definition nonempty (s : str) : bool :=
  match s with [] => false | _ :: _ => true end.

(** [s.split()]: split on runs of whitespace, no empty words. *)
Definition split (s : str) : list str :=
  filter nonempty (re_split isspace s).

(** [re.sub('[...]+', rep, s)] for a character class given as a predicate *)
Fixpoint sub_runs (f : ascii -> bool) (rep : str) (insep : bool) (s : str)
  : str :=
  match s with
  | [] => []
  | c :: s' =>
      if f c
      then if insep then sub_runs f rep true s'
           else rep ++ sub_runs f rep true s'
      else c :: sub_runs f rep false s'
  end.

(** [re.sub('[...]', rep, s)]: every character of the class on its own *)
Definition sub_each (f : ascii -> bool) (rep : str) (s : str) : str :=
  flat_map (fun c => if f c then rep else [c]) s.

Definition len (s : str) : Z := Z.of_nat (length s).

End Py.

(** ** [src/text_processor.py] *)

Module TextProcessor.
Import Py.

(** [self.abbreviations], in the insertion order of the dictionary *)
Definition abbreviations : list (str * str) :=
  map (fun p => (of_string (fst p), of_string (snd p)))
    [ ("dr.", "doctor"); ("mr.", "mister"); ("mrs.", "misses");
      ("ms.", "miss"); ("prof.", "professor"); ("st.", "street");
      ("ave.", "avenue"); ("blvd.", "boulevard"); ("etc.", "etcetera");
      ("vs.", "versus"); ("e.g.", "for example"); ("i.e.", "that is") ]%string.

(** [self.numbers] *)
Definition numbers : list (str * str) :=
  map (fun p => (of_string (fst p), of_string (snd p)))
    [ ("0", "zero"); ("1", "one"); ("2", "two"); ("3", "three");
      ("4", "four"); ("5", "five"); ("6", "six"); ("7", "seven");
      ("8", "eight"); ("9", "nine"); ("10", "ten"); ("11", "eleven");
      ("12", "twelve"); ("13", "thirteen"); ("14", "fourteen");
      ("15", "fifteen"); ("16", "sixteen"); ("17", "seventeen");
      ("18", "eighteen"); ("19", "nineteen"); ("20", "twenty") ]%string.

(** [d.get(k)] on a dictionary kept as its list of items *)
Fixpoint lookup (k : str) (d : list (str * str)) : option str :=
  match d with
  | [] => None
  | (k', v) :: d' => if eqs k k' then Some v else lookup k d'
  end.

(** The symbol table of [_handle_special_characters], in insertion order *)
Definition replacements : list (str * str) :=
  map (fun p => (of_string (fst p), of_string (snd p)))
    [ ("&", " and "); ("@", " at "); ("#", " hash "); ("$", " dollar ");
      ("%", " percent "); ("+", " plus "); ("=", " equals ");
      ("<", " less than "); (">", " greater than "); ("|", " or ") ]%string.

(** [for k, v in table.items(): text = text.replace(k, v)] *)
Definition replace_all (table : list (str * str)) (text : str) : str :=
  fold_left (fun t kv => replace (fst kv) (snd kv) t) table text.

(** The characters kept by [re.sub(r'[^\w\s\.,!?\-\']', ' ', text)] *)
Definition kept (c : ascii) : bool :=
  isword c || isspace c || mem c (of_string ".,!?-'").

Definition _handle_special_characters (text : str) : str :=
  let text := replace_all replacements text in
  sub_each (fun c => negb (kept c)) (of_string " ") text.

(** The body of the loop over [words] in [clean_text] *)
Definition expand_word (word : str) : str :=
  let clean_word := strip ispunct word in
  match lookup clean_word numbers with
  | Some w =>
      let prefix :=
        slice_to (length word - length (lstrip ispunct word)) word in
      let suffix := slice_from (length (rstrip ispunct word)) word in
      prefix ++ w ++ suffix
  | None => word
  end.

Definition clean_text (text : str) : str :=
  match text with
  | [] => []
  | _ :: _ =>
      let text := lower text in
      let text := sub_runs isspace (of_string " ") false text in
      let text := replace_all abbreviations text in
      let words := split text in
      let expanded_words := map expand_word words in
      let text := join (of_string " ") expanded_words in
      let text := _handle_special_characters text in
      strip_ws (sub_runs isspace (of_string " ") false text)
  end.

Section Sentences.

(** [nltk.sent_tokenize]: an outside call; [None] stands for an exception. *)
Variable sent_tokenize : str -> option (list str).

(** [[s.strip() for s in sentences if s.strip()]] *)
Definition stripped_nonempty (sentences : list str) : list str :=
  map strip_ws (filter (fun s => nonempty (strip_ws s)) sentences).

Definition issentence_end (c : ascii) : bool := mem c (of_string ".!?").

Definition segment_sentences (text : str) : list str :=
  match sent_tokenize text with
  | Some sentences => stripped_nonempty sentences
  | None => stripped_nonempty (re_split issentence_end text)
  end.

(** One iteration of the grouping loop of [preprocess_for_tts]; the state
    is [(chunks, current_chunk)]. *)
Definition chunk_step (max_length : Z) (st : list str * str) (sentence : str)
  : list str * str :=
  let (chunks, current_chunk) := st in
  if (len (current_chunk ++ of_string " " ++ sentence) <=? max_length)%Z
  then (chunks, strip_ws (current_chunk ++ of_string " " ++ sentence))
  else
    ((if nonempty current_chunk then chunks ++ [current_chunk] else chunks),
     sentence).

Definition group_sentences (max_length : Z) (sentences : list str)
  : list str :=
  let (chunks, current_chunk) :=
    fold_left (chunk_step max_length) sentences ([], []) in
  if nonempty current_chunk then chunks ++ [current_chunk] else chunks.

Definition preprocess_for_tts (text : str) (max_length : Z) : list str :=
  let cleaned_text := clean_text text in
  let sentences := segment_sentences cleaned_text in
  group_sentences max_length sentences.

End Sentences.

Definition validate_text (text : str) : bool :=
  if negb (nonempty text) || negb (nonempty (strip_ws text)) then false
  else if (len (strip_ws text) <? 3)%Z then false
  else true.

End TextProcessor.

(** ** [src/audio_processor.py] *)

Module AudioProcessor.

Local Open Scope R_scope.

(** A one-dimensional numpy array of samples *)
Definition audio := list R.

(** Division that fails on a zero divisor *)
Definition checked_div (x y : R) : option R :=
  if Req_dec_T y 0 then None else Some (x / y).

Definition bind {A B : Type} (m : option A) (k : A -> option B) : option B :=
  match m with
  | Some a => k a
  | None => None
  end.

Notation "x <- m ;; k" := (bind m (fun x => k))
  (at level 61, m at next level, right associativity).

Definition sum (a : audio) : R := fold_right Rplus 0 a.

(** [np.mean(a)]: the sum over the number of samples *)
Definition mean (a : audio) : option R := checked_div (sum a) (INR (length a)).

(** [np.max(a)]; it fails on the empty array *)
Definition np_max (a : audio) : option R :=
  match a with
  | [] => None
  | x :: a' => Some (fold_left Rmax a' x)
  end.

(** [all (a / d)] for a scalar [d] *)
Fixpoint div_all (a : audio) (d : R) : option audio :=
  match a with
  | [] => Some []
  | x :: a' => q <- checked_div x d ;; r <- div_all a' d ;; Some (q :: r)
  end.

(** [np.sqrt(np.mean(audio_data ** 2))] *)
Definition rms_of (audio_data : audio) : option R :=
  m <- mean (map (fun x => x * x) audio_data) ;; Some (sqrt m).

Definition normalize_audio (audio_data : audio) (target_level : R)
  : option audio :=
  if Nat.eqb (length audio_data) 0 then Some audio_data
  else
    rms <- rms_of audio_data ;;
    if Rlt_dec 0 rms then
      e <- checked_div target_level 20 ;;
      let target_rms := Rpower 10 e in
      normalization_factor <- checked_div target_rms rms ;;
      let normalized := map (fun x => x * normalization_factor) audio_data in
      max_val <- np_max (map Rabs normalized) ;;
      if Rlt_dec 1 max_val then div_all normalized max_val
      else Some normalized
    else Some audio_data.

(** [int(ms * sample_rate / 1000)]: the quotient truncated towards zero *)
Definition ms_to_samples (ms sample_rate : Z) : Z :=
  Z.quot (ms * sample_rate) 1000.

(** [np.linspace(start, stop, num)] *)
Definition linspace (start stop : R) (num : nat) : audio :=
  match num with
  | 1%nat => [start]
  | _ =>
      map (fun i => start + INR i * ((stop - start) / INR (num - 1)))
        (seq 0 num)
  end.

(** Element-wise product of two arrays of the same length *)
Fixpoint mul (a b : audio) : audio :=
  match a, b with
  | x :: a', y :: b' => x * y :: mul a' b'
  | _, _ => []
  end.

(** [a[:n] *= w] *)
Definition imul_head (n : nat) (w a : audio) : audio :=
  mul (firstn n a) w ++ skipn n a.

(** [a[-n:] *= w] for [0 < n <= len(a)] *)
Definition imul_tail (n : nat) (w a : audio) : audio :=
  firstn (length a - n) a ++ mul (skipn (length a - n) a) w.

(** What [apply_fade] does to the samples of its working copy *)
Definition fade_samples (a : audio) (fade_in_ms fade_out_ms sample_rate : Z)
  : audio :=
  let fade_in_samples := ms_to_samples fade_in_ms sample_rate in
  let fade_out_samples := ms_to_samples fade_out_ms sample_rate in
  let n := Z.of_nat (length a) in
  let a :=
    if ((0 <? fade_in_samples) && (fade_in_samples <? n))%Z
    then imul_head (Z.to_nat fade_in_samples)
           (linspace 0 1 (Z.to_nat fade_in_samples)) a
    else a in
  if ((0 <? fade_out_samples) && (fade_out_samples <? n))%Z
  then imul_tail (Z.to_nat fade_out_samples)
         (linspace 1 0 (Z.to_nat fade_out_samples)) a
  else a.

(** The arrays alive in the interpreter: an array object is its index in
    the store; new objects are appended. *)
Definition store := list audio.
Definition ref := nat.

Definition read (h : store) (r : ref) : option audio := nth_error h r.

Definition alloc (h : store) (a : audio) : store * ref :=
  (h ++ [a], length h).

Fixpoint write (h : store) (r : ref) (a : audio) : store :=
  match h, r with
  | [], _ => []
  | _ :: h', O => a :: h'
  | b :: h', S r' => b :: write h' r' a
  end.

(** [apply_fade] on array objects: the copy is a new object, the two
    in-place products write to the copy only. *)
Definition apply_fade (h : store) (audio_data : ref)
    (fade_in_ms fade_out_ms sample_rate : Z) : option (store * ref) :=
  a <- read h audio_data ;;
  if Nat.eqb (length a) 0 then Some (h, audio_data)
  else
    let (h, audio_copy) := alloc h a in
    let fade_in_samples := ms_to_samples fade_in_ms sample_rate in
    let fade_out_samples := ms_to_samples fade_out_ms sample_rate in
    h <- (if ((0 <? fade_in_samples)
              && (fade_in_samples <? Z.of_nat (length a)))%Z
          then c <- read h audio_copy ;;
               Some (write h audio_copy
                       (imul_head (Z.to_nat fade_in_samples)
                          (linspace 0 1 (Z.to_nat fade_in_samples)) c))
          else Some h) ;;
    h <- (if ((0 <? fade_out_samples)
              && (fade_out_samples <? Z.of_nat (length a)))%Z
          then c <- read h audio_copy ;;
               Some (write h audio_copy
                       (imul_tail (Z.to_nat fade_out_samples)
                          (linspace 1 0 (Z.to_nat fade_out_samples)) c))
          else Some h) ;;
    Some (h, audio_copy).

(** [concatenate_audio]; [None] is the exception of [np.zeros] on a
    negative length. *)
Definition concatenate_audio (audio_segments : list audio)
    (gap_ms sample_rate : Z) : option audio :=
  match audio_segments with
  | [] => Some []
  | [segment] => Some segment
  | first :: rest =>
      let gap_samples := ms_to_samples gap_ms sample_rate in
      if (gap_samples <? 0)%Z then None
      else
        let gap_audio := repeat 0 (Z.to_nat gap_samples) in
        Some (fold_left (fun result segment => result ++ gap_audio ++ segment)
                rest first)
  end.





End AudioProcessor.

(** ** [examples/qa_system.py] *)

Module QATextToAudio.
Import Py.

(** A dictionary from questions to answers, as its items in insertion
    order. *)
Definition database := list (str * str).

(** The dictionary [load_qa_database] returns when no file overrides it *)
Definition default_qa_database : database :=
  map (fun p => (of_string (fst p), of_string (snd p)))
    [ ("what is artificial intelligence",
       "Artificial Intelligence, or AI, is the simulation of human intelligence in machines. It includes machine learning, natural language processing, and computer vision to enable computers to perform tasks that typically require human intelligence.");
      ("how does text to speech work",
       "Text-to-speech works by converting written text into spoken words. It uses neural networks to analyze text, understand pronunciation, and generate natural-sounding speech audio using advanced deep learning models.");
      ("what is machine learning",
       "Machine learning is a subset of artificial intelligence that enables computers to learn and make decisions from data without being explicitly programmed. It uses algorithms to identify patterns and make predictions.");
      ("what is python programming",
       "Python is a high-level, interpreted programming language known for its simple syntax and versatility. It's widely used in web development, data science, artificial intelligence, and automation.");
      ("how do neural networks work",
       "Neural networks are computing systems inspired by biological neural networks. They consist of interconnected nodes that process information, learn patterns from data, and make predictions through weighted connections and activation functions.");
      ("what are the benefits of ai",
       "AI benefits include automation of repetitive tasks, improved decision-making through data analysis, enhanced productivity, better healthcare diagnostics, personalized user experiences, and solutions to complex problems.");
      ("what is deep learning",
       "Deep learning is a subset of machine learning that uses artificial neural networks with multiple layers to model and understand complex patterns in data. It's particularly effective for tasks like image recognition and natural language processing.");
      ("how does speech recognition work",
       "Speech recognition converts spoken language into text using acoustic models, language models, and signal processing. It analyzes audio waves, identifies phonemes, and matches them to words using machine learning algorithms.")
    ]%string.

Definition isquestion_mark (c : ascii) : bool := eqc c "?"%char.

Definition normalize_question (question : str) : str :=
  rstrip isquestion_mark (strip_ws (lower question)).

(** [db[k]] when [k in db] *)
Fixpoint get (k : str) (db : database) : option str :=
  match db with
  | [] => None
  | (k', v) :: db' => if eqs k k' then Some v else get k db'
  end.

(** The loop over [self.qa_database.items()] *)
Fixpoint partial_match (normalized_q : str) (db : database) : option str :=
  match db with
  | [] => None
  | (db_question, answer) :: db' =>
      if contains normalized_q db_question || contains db_question normalized_q
      then Some answer
      else partial_match normalized_q db'
  end.

Definition find_answer (qa_database : database) (question : str)
  : option str :=
  let normalized_q := normalize_question question in
  match get normalized_q qa_database with
  | Some answer => Some answer
  | None => partial_match normalized_q qa_database
  end.

(** [d[k] = v]: the value of an existing key is replaced where it stands, a
    new key goes last. *)
Fixpoint set_item (k v : str) (db : database) : database :=
  match db with
  | [] => [(k, v)]
  | (k', v') :: db' =>
      if eqs k k' then (k', v) :: db' else (k', v') :: set_item k v db'
  end.

(** The dictionary after [add_qa_pair]; writing it to the file does not
    change it. *)
Definition add_qa_pair (qa_database : database) (question answer : str)
  : database :=
  let normalized_q := normalize_question question in
  set_item normalized_q answer qa_database.

End QATextToAudio.

(** ** [src/main.py] *)

Module TextToAudioConverter.
Import Py.

Definition audio := AudioProcessor.audio.

(** An exception derived from [Exception], with its message *)
Inductive exn : Type := Exception (msg : str).

Inductive outcome (A : Type) : Type :=
| Returned (a : A)
| Raised (e : exn).
Arguments Returned {A} a.
Arguments Raised {A} e.

(** The files written so far, newest first *)
Definition files := list (str * audio).

(** A computation that may raise and may write files *)
Definition M (A : Type) : Type := files -> outcome A * files.

Definition ret {A : Type} (a : A) : M A := fun w => (Returned a, w).

Definition raise {A : Type} (e : exn) : M A := fun w => (Raised e, w).

Definition bind {A B : Type} (m : M A) (k : A -> M B) : M B :=
  fun w =>
    match m w with
    | (Returned a, w') => k a w'
    | (Raised e, w') => (Raised e, w')
    end.

(** [try: m  except Exception as e: h e] *)
Definition try_except {A : Type} (m : M A) (h : exn -> M A) : M A :=
  fun w =>
    match m w with
    | (Returned a, w') => (Returned a, w')
    | (Raised e, w') => h e w'
    end.

Definition lift {A : Type} (o : outcome A) : M A := fun w => (o, w).

Notation "x <- m ;; k" := (bind m (fun x => k))
  (at level 61, m at next level, right associativity).

(** [self.config] *)
Record config : Type := {
  max_text_length : Z;
  audio_format : str;
  normalize_audio : bool;
  apply_fade : bool;
  noise_reduction : bool;
  concatenate_segments : bool;
  segment_gap_ms : Z
}.

Definition default_config : config := {|
  max_text_length := 500;
  audio_format := of_string "wav";
  normalize_audio := true;
  apply_fade := true;
  noise_reduction := false;
  concatenate_segments := true;
  segment_gap_ms := 500
|}.

Section Converter.

(** The calls that leave the repository. *)
Variable sent_tokenize : str -> option (list str).
Variable get_sample_rate : outcome Z.
Variable synthesize_speech : str -> outcome (option audio).
Variable apply_noise_reduction : audio -> Z -> outcome audio.
Variable timestamp : str.
(** [str(self.output_dir / f"{Path(filename).stem}.{format}")] *)
Variable output_path : str -> str -> str.
(** [sf.write] raises when this gives an exception for the path. *)
Variable sf_write_error : str -> option exn.

Variable cfg : config.

Definition sf_write (path : str) (data : audio) (sample_rate : Z) : M unit :=
  fun w =>
    match sf_write_error path with
    | Some e => (Raised e, w)
    | None => (Returned tt, (path, data) :: w)
    end.

Definition of_option {A : Type} (msg : string) (o : option A) : M A :=
  match o with
  | Some a => ret a
  | None => raise (Exception (of_string msg))
  end.

(** [AudioProcessor.save_audio] *)
Definition save_audio (audio_data : audio) (filename : str) (sample_rate : Z)
    (format : str) (normalize : bool) : M str :=
  if Nat.eqb (length audio_data) 0
  then raise (Exception (of_string "No audio data provided"))
  else
    audio_data <-
      (if normalize
       then of_option "division by zero"
              (AudioProcessor.normalize_audio audio_data (-3))
       else ret audio_data) ;;
    let path := output_path filename format in
    try_except
      (_ <- sf_write path audio_data sample_rate ;; ret path)
      (fun e => raise e).

Definition _post_process_audio (audio_data : audio) (sample_rate : Z)
  : M audio :=
  let processed_audio := audio_data in
  processed_audio <-
    (if noise_reduction cfg
     then lift (apply_noise_reduction processed_audio sample_rate)
     else ret processed_audio) ;;
  ret (if apply_fade cfg
       then AudioProcessor.fade_samples processed_audio 50 50 sample_rate
       else processed_audio).

(** The loop over the chunks: the arrays of the chunks the model could
    synthesize. *)
Fixpoint synthesize_chunks (chunks : list str) : M (list audio) :=
  match chunks with
  | [] => ret []
  | chunk :: rest =>
      a <- lift (synthesize_speech chunk) ;;
      segments <- synthesize_chunks rest ;;
      ret (match a with
           | Some a => a :: segments
           | None => segments
           end)
  end.

Definition str_of_nat (n : nat) : str :=
  of_string (NilEmpty.string_of_uint (Nat.to_uint n)).

(** The body of the [try] statement of [convert_text] *)
Definition convert_text_try (text : str) (output_filename : option str)
  : M (option str) :=
  if negb (TextProcessor.validate_text text) then ret None
  else
    let processed_chunks :=
      TextProcessor.preprocess_for_tts sent_tokenize text
        (max_text_length cfg) in
    if Nat.eqb (length processed_chunks) 0 then ret None
    else
      sample_rate <- lift get_sample_rate ;;
      audio_segments <- synthesize_chunks processed_chunks ;;
      match audio_segments with
      | [] => ret None
      | first :: _ =>
          combined_audio <-
            (if (1 <? length audio_segments)%nat
                && concatenate_segments cfg
             then of_option "negative dimensions are not allowed"
                    (AudioProcessor.concatenate_audio audio_segments
                       (segment_gap_ms cfg) sample_rate)
             else ret first) ;;
          processed_audio <-
            _post_process_audio combined_audio sample_rate ;;
          let output_filename :=
            match output_filename with
            | Some (c :: f) => c :: f
            | _ =>
                of_string "tts_output_"
                ++ str_of_nat (length (split text))
                ++ of_string "words_" ++ timestamp
            end in
          output_path <-
            save_audio processed_audio output_filename sample_rate
              (audio_format cfg) (normalize_audio cfg) ;;
          ret (Some output_path)
      end.

Definition convert_text (text : str) (output_filename : option str)
  : M (option str) :=
  if negb (nonempty text) || negb (nonempty (strip_ws text)) then ret None
  else
    try_except (convert_text_try text output_filename)
      (fun e => ret None).




End Converter.

End TextToAudioConverter.

(** * Properties *)

Unset Implicit Arguments.

(** ** Strings *)

Section StringFacts.
Import Py.

Lemma eqc_true (a b : ascii) : eqc a b = true <-> a = b.
Proof. unfold eqc. apply Ascii.eqb_eq. Qed.

Lemma eqs_true (a b : str) : eqs a b = true <-> a = b.
Proof.
  revert b. induction a as [|x a IH]; intros [|y b]; simpl;
    try (split; [discriminate | congruence]); try tauto.
  rewrite andb_true_iff, eqc_true, IH. split.
  - intros [-> ->]. reflexivity.
  - intros H. injection H as -> ->. auto.
Qed.

Lemma eqs_refl (a : str) : eqs a a = true.
Proof. apply eqs_true. reflexivity. Qed.

Lemma startswith_true (p s : str) :
  startswith p s = true <-> exists b, s = p ++ b.
Proof.
  revert s. induction p as [|x p IH]; intros s; simpl.
  - split; [intros _; exists s; reflexivity | reflexivity].
  - destruct s as [|y s].
    + split; [discriminate | intros [b H]; discriminate].
    + rewrite andb_true_iff, eqc_true, IH. split.
      * intros [-> [b ->]]. exists b. reflexivity.
      * intros [b H]. injection H as -> ->. split; [reflexivity | eauto].
Qed.

(** [p] occurs in [s] *)
Definition substring (p s : str) : Prop := exists a b, s = a ++ p ++ b.

Lemma contains_true (p s : str) : contains p s = true <-> substring p s.
Proof.
  unfold substring. induction s as [|c s IH].
  - simpl. rewrite orb_false_r, startswith_true. split.
    + intros [b H]. exists [], b. exact H.
    + intros [a [b H]]. destruct a; simpl in H.
      * eauto.
      * discriminate.
  - cbn [contains]. rewrite orb_true_iff, startswith_true, IH. split.
    + intros [[b H] | [a [b H]]].
      * exists [], b. exact H.
      * exists (c :: a), b. simpl. congruence.
    + intros [a [b H]]. destruct a as [|c' a]; simpl in H.
      * left. eauto.
      * right. injection H as _ H. eauto.
Qed.

Lemma substring_refl (s : str) : substring s s.
Proof. exists [], []. simpl. rewrite app_nil_r. reflexivity. Qed.

(** The first character is not a blank *)
Definition hd_ok (f : ascii -> bool) (s : str) : bool :=
  match s with
  | [] => false
  | c :: _ => negb (f c)
  end.

(** Non-empty, with no [f] character at either end *)
Definition trimmed (f : ascii -> bool) (s : str) : bool :=
  hd_ok f s && hd_ok f (rev s).

Lemma lstrip_hd_ok f s : hd_ok f s = true -> lstrip f s = s.
Proof.
  destruct s as [|c s]; simpl; [discriminate|].
  destruct (f c); [discriminate | reflexivity].
Qed.

Lemma lstrip_cases f s : lstrip f s = [] \/ hd_ok f (lstrip f s) = true.
Proof.
  induction s as [|c s IH]; simpl; [auto|].
  destruct (f c) eqn:E; [exact IH|]. right. simpl. rewrite E. reflexivity.
Qed.

Lemma lstrip_suffix f s : exists p, s = p ++ lstrip f s /\ forallb f p = true.
Proof.
  induction s as [|c s [p [IH1 IH2]]]; simpl.
  - exists []. auto.
  - destruct (f c) eqn:E.
    + exists (c :: p). simpl. rewrite E, IH2. split; [congruence | reflexivity].
    + exists []. auto.
Qed.

Lemma lstrip_nil f s : lstrip f s = [] <-> forallb f s = true.
Proof.
  induction s as [|c s IH]; simpl; [tauto|].
  destruct (f c); simpl; [exact IH|]. split; discriminate.
Qed.

Lemma forallb_rev (f : ascii -> bool) s : forallb f (rev s) = forallb f s.
Proof.
  induction s as [|c s IH]; simpl; [reflexivity|].
  rewrite forallb_app, IH. simpl. rewrite andb_true_r. apply andb_comm.
Qed.

Lemma rstrip_nil f s : rstrip f s = [] <-> forallb f s = true.
Proof.
  unfold rstrip. rewrite <- forallb_rev, <- lstrip_nil. split.
  - intros H. apply (f_equal (@rev ascii)) in H. rewrite rev_involutive in H.
    exact H.
  - intros ->. reflexivity.
Qed.

Lemma strip_nil f s : strip f s = [] <-> forallb f s = true.
Proof.
  unfold strip. rewrite rstrip_nil.
  destruct (lstrip_suffix f s) as [p [Hs Hp]].
  rewrite Hs at 2. rewrite forallb_app, Hp. simpl. tauto.
Qed.

Lemma strip_trimmed f s : trimmed f s = true -> strip f s = s.
Proof.
  unfold trimmed, strip, rstrip. intros H.
  apply andb_true_iff in H as [H1 H2].
  rewrite (lstrip_hd_ok f s H1), (lstrip_hd_ok f (rev s) H2).
  apply rev_involutive.
Qed.

Lemma hd_ok_app f a b : hd_ok f a = true -> hd_ok f (a ++ b) = true.
Proof. destruct a; simpl; [discriminate | auto]. Qed.

Lemma strip_cases f s : strip f s = [] \/ trimmed f (strip f s) = true.
Proof.
  unfold strip, rstrip.
  destruct (lstrip_cases f s) as [E | Ht].
  - left. rewrite E. reflexivity.
  - set (t := lstrip f s) in *.
    destruct (lstrip_cases f (rev t)) as [E | Hu].
    + left. rewrite E. reflexivity.
    + right. unfold trimmed. rewrite rev_involutive, Hu, andb_true_r.
      destruct (lstrip_suffix f (rev t)) as [p [Hp _]].
      set (u := lstrip f (rev t)) in *.
      assert (Ht' : t = rev u ++ rev p).
      { rewrite <- rev_app_distr, <- Hp, rev_involutive. reflexivity. }
      destruct (rev u) as [|c r] eqn:Er.
      * apply (f_equal (@rev ascii)) in Er. rewrite rev_involutive in Er.
        rewrite Er in Hu. discriminate.
      * rewrite Ht' in Ht. exact Ht.
Qed.

Lemma trimmed_join f a sep b :
  trimmed f a = true -> trimmed f b = true ->
  trimmed f (a ++ sep ++ b) = true.
Proof.
  unfold trimmed. intros Ha Hb.
  apply andb_true_iff in Ha as [Ha _]. apply andb_true_iff in Hb as [_ Hb].
  rewrite (hd_ok_app f a _ Ha). rewrite !rev_app_distr, <- app_assoc.
  rewrite (hd_ok_app f (rev b) _ Hb). reflexivity.
Qed.

Lemma nonempty_true (s : str) : nonempty s = true <-> s <> [].
Proof. destruct s; simpl; split; congruence. Qed.

End StringFacts.

(** ** [TextProcessor.validate_text] *)

Section ValidateText.
Import Py TextProcessor.

Lemma validate_text_eq (text : str) :
  validate_text text = negb (len (strip_ws text) <? 3)%Z.
Proof.
  unfold validate_text.
  destruct text as [|c text]; [reflexivity|].
  cbn [nonempty negb orb].
  destruct (strip_ws (c :: text)) as [|d s] eqn:E; [reflexivity|].
  cbn [nonempty negb]. destruct (len (d :: s) <? 3)%Z; reflexivity.
Qed.

(** C10, as the code has it: [validate_text] returns [False] exactly when
    the text is empty, consists of whitespace only, or has fewer than 3
    characters once stripped; a text longer than 5000 characters is
    accepted exactly when its stripped form has at least 3 characters, the
    over-length test rejecting nothing. *)
Theorem validate_text_false_iff (text : str) :
  (validate_text text = false <->
     text = [] \/ forallb isspace text = true \/ (len (strip_ws text) < 3)%Z)
  /\ ((5000 < len text)%Z -> (3 <= len (strip_ws text))%Z ->
      validate_text text = true).
Proof.
  rewrite validate_text_eq. split.
  - rewrite negb_false_iff, Z.ltb_lt. split; [tauto|].
    intros [-> | [H | H]]; [reflexivity | | exact H].
    apply (strip_nil isspace) in H. unfold strip_ws. rewrite H. reflexivity.
  - intros _ H. apply negb_true_iff, Z.ltb_ge. exact H.
Qed.

Definition long_text : str := repeat "a"%char (5 * 1000 + 1).

Lemma validate_text_false_iff_witness :
  (5000 < len long_text)%Z /\ (3 <= len (strip_ws long_text))%Z
  /\ validate_text long_text = true.
Proof.
  assert (H1 : (5000 < len long_text)%Z) by (vm_compute; reflexivity).
  assert (H2 : (3 <= len (strip_ws long_text))%Z)
    by (vm_compute; discriminate).
  split; [exact H1 | split; [exact H2|]].
  exact (proj2 (validate_text_false_iff long_text) H1 H2).
Defined.

Definition long_blank_text : str := repeat " "%char (5 * 1000 + 1).

(** A text of 5001 blanks is longer than 5000 characters and is rejected. *)
Lemma validate_text_long_blank :
  (5000 < len long_blank_text)%Z /\ validate_text long_blank_text = false.
Proof. split; vm_compute; reflexivity. Qed.

End ValidateText.

(** ** [QATextToAudio.find_answer] *)

Section FindAnswer.
Import Py QATextToAudio.

Lemma get_Some (k : str) (db : database) (a : str) :
  get k db = Some a -> In (k, a) db.
Proof.
  induction db as [|[k' v] db IH]; simpl; [discriminate|].
  destruct (eqs k k') eqn:E.
  - apply eqs_true in E. intros H. injection H as ->. left. congruence.
  - auto.
Qed.

Lemma get_None (k : str) (db : database) :
  get k db = None <-> ~ In k (map fst db).
Proof.
  induction db as [|[k' v] db IH]; simpl; [tauto|].
  destruct (eqs k k') eqn:E.
  - apply eqs_true in E. split; [discriminate | intros H; exfalso; auto].
  - rewrite IH. split.
    + intros H [H1 | H1]; [|auto]. subst k'. rewrite eqs_refl in E.
      discriminate.
    + tauto.
Qed.

(** The keys related to [q] by the test of the loop *)
Definition related (q k : str) : Prop := substring q k \/ substring k q.

Lemma related_test (q k : str) :
  contains q k || contains k q = true <-> related q k.
Proof. unfold related. rewrite orb_true_iff, !contains_true. tauto. Qed.

Lemma partial_match_Some (q : str) (db : database) (a : str) :
  partial_match q db = Some a -> exists k, In (k, a) db /\ related q k.
Proof.
  induction db as [|[k v] db IH]; simpl; [discriminate|].
  destruct (contains q k || contains k q) eqn:E.
  - intros H. injection H as ->. exists k. split; [auto|].
    apply related_test. exact E.
  - intros H. destruct (IH H) as [k' [H1 H2]]. eauto.
Qed.

Lemma partial_match_None (q : str) (db : database) :
  partial_match q db = None <-> forall k a, In (k, a) db -> ~ related q k.
Proof.
  induction db as [|[k v] db IH]; simpl.
  - split; [intros _ ? ? [] | reflexivity].
  - destruct (contains q k || contains k q) eqn:E.
    + split; [discriminate|]. intros H. exfalso.
      apply (H k v); [auto | apply related_test; exact E].
    + rewrite IH. split.
      * intros H k' a [H1 | H1]; [|eauto]. injection H1 as <- <-.
        rewrite <- related_test, E. discriminate.
      * intros H k' a H1. eauto.
Qed.

(** C2: with [q] the normalized question (lower-cased, stripped, trailing
    question marks removed), [find_answer] returns the stored answer when
    [q] is a key; otherwise an answer it returns belongs to a key that
    contains [q] or is contained in it; and it returns [None] exactly when
    no key is so related to [q]. *)
Theorem find_answer_spec (db : database) (question : str) :
  normalize_question question
    = rstrip isquestion_mark (strip_ws (lower question))
  /\ (In (normalize_question question) (map fst db) ->
      exists a, get (normalize_question question) db = Some a
                /\ In (normalize_question question, a) db
                /\ find_answer db question = Some a)
  /\ (~ In (normalize_question question) (map fst db) ->
      forall a, find_answer db question = Some a ->
                exists k, In (k, a) db
                          /\ related (normalize_question question) k)
  /\ (find_answer db question = None <->
      forall k a, In (k, a) db -> ~ related (normalize_question question) k).
Proof.
  unfold find_answer. set (q := normalize_question question).
  split; [reflexivity|]. split; [|split].
  - intros Hin. destruct (get q db) as [a|] eqn:E.
    + exists a. auto using get_Some.
    + apply get_None in E. contradiction.
  - intros Hin a. apply get_None in Hin. rewrite Hin.
    apply partial_match_Some.
  - destruct (get q db) as [a|] eqn:E.
    + split; [discriminate|]. intros H. exfalso.
      apply (H q a (get_Some _ _ _ E)). left. apply substring_refl.
    + apply partial_match_None.
Qed.

Lemma find_answer_spec_witness :
  find_answer default_qa_database (of_string "What is Deep Learning?")
  = get (of_string "what is deep learning") default_qa_database
  /\ find_answer default_qa_database (of_string "xyzzy") = None.
Proof.
  pose proof (find_answer_spec default_qa_database
                (of_string "What is Deep Learning?")) as [_ [H _]].
  destruct H as [a [H1 [_ H2]]].
  - vm_compute. do 6 right. left. reflexivity.
  - split; [|vm_compute; reflexivity].
    rewrite H2. rewrite <- H1. vm_compute. reflexivity.
Defined.

End FindAnswer.

(** ** [TextProcessor.preprocess_for_tts] *)

Section Chunking.
Import Py TextProcessor.

Definition space : str := of_string " ".

(** The greedy line-wrap over sentences, as groups of sentences: [cur] is
    the group being filled.  A sentence joins the current group when the
    chunk it makes with a joining space stays within [max_length], and
    starts a new group otherwise. *)
Fixpoint wrap (max_length : Z) (cur : list str) (sentences : list str)
  : list (list str) :=
  match sentences with
  | [] => match cur with [] => [] | _ :: _ => [cur] end
  | s :: rest =>
      match cur with
      | [] => wrap max_length [s] rest
      | _ :: _ =>
          if (len (join space cur) + 1 + len s <=? max_length)%Z
          then wrap max_length (cur ++ [s]) rest
          else cur :: wrap max_length [s] rest
      end
  end.

Definition finish (st : list str * str) : list str :=
  let (chunks, current_chunk) := st in
  if nonempty current_chunk then chunks ++ [current_chunk] else chunks.

Lemma group_sentences_finish max_length sentences :
  group_sentences max_length sentences
  = finish (fold_left (chunk_step max_length) sentences ([], [])).
Proof. reflexivity. Qed.

Lemma trimmed_nonempty f s : trimmed f s = true -> s <> [].
Proof. destruct s; [discriminate | discriminate]. Qed.

Lemma join_snoc sep (l : list str) s :
  l <> [] -> join sep (l ++ [s]) = join sep l ++ sep ++ s.
Proof.
  induction l as [|a l IH]; [congruence|]. intros _.
  destruct l as [|b l].
  - reflexivity.
  - change (join sep ((a :: b :: l) ++ [s]))
      with (a ++ sep ++ join sep ((b :: l) ++ [s])).
    rewrite IH by discriminate.
    change (join sep (a :: b :: l)) with (a ++ sep ++ join sep (b :: l)).
    rewrite <- !app_assoc. reflexivity.
Qed.

Lemma trimmed_join_list (l : list str) :
  l <> [] -> Forall (fun s => trimmed isspace s = true) l ->
  trimmed isspace (join space l) = true.
Proof.
  induction l as [|a l IH]; [congruence|]. intros _ H.
  inversion H as [|? ? Ha Hl]; subst.
  destruct l as [|b l]; [exact Ha|].
  change (join space (a :: b :: l)) with (a ++ space ++ join space (b :: l)).
  apply trimmed_join; [exact Ha|]. apply IH; [discriminate | exact Hl].
Qed.

Lemma strip_ws_blank_cons (s : str) :
  trimmed isspace s = true -> strip_ws (space ++ s) = s.
Proof.
  intros H. unfold strip_ws, strip. simpl.
  fold (strip isspace s). apply strip_trimmed. exact H.
Qed.

Lemma len_app (a b : str) : len (a ++ b) = (len a + len b)%Z.
Proof. unfold len. rewrite length_app. lia. Qed.

Lemma fold_chunk_step_wrap max_length sentences :
  Forall (fun s => trimmed isspace s = true) sentences ->
  forall chunks cur,
    Forall (fun s => trimmed isspace s = true) cur ->
    finish (fold_left (chunk_step max_length) sentences
              (chunks, join space cur))
    = chunks ++ map (join space) (wrap max_length cur sentences).
Proof.
  induction 1 as [|s rest Hs Hrest IH]; intros chunks cur Hcur.
  - simpl. destruct cur as [|a cur].
    + simpl. rewrite app_nil_r. reflexivity.
    + assert (Hne : join space (a :: cur) <> []).
      { apply (trimmed_nonempty isspace), trimmed_join_list;
          [discriminate | exact Hcur]. }
      apply nonempty_true in Hne. rewrite Hne. reflexivity.
  - cbn [fold_left]. destruct cur as [|a cur].
    + cbn [wrap]. cbn [chunk_step join nonempty].
      change (of_string " ") with space. rewrite app_nil_l.
      rewrite (strip_ws_blank_cons s Hs).
      assert (E : (chunks, s) = (chunks, join space [s])) by reflexivity.
      destruct (len (space ++ s) <=? max_length)%Z;
        rewrite E; apply IH; auto.
    + cbn [wrap].
      assert (Ht : trimmed isspace (join space (a :: cur)) = true).
      { apply trimmed_join_list; [discriminate | exact Hcur]. }
      unfold chunk_step at 2. change (of_string " ") with space.
      rewrite !len_app. change (len space) with 1%Z.
      rewrite Z.add_assoc.
      destruct (len (join space (a :: cur)) + 1 + len s <=? max_length)%Z.
      * unfold strip_ws. rewrite strip_trimmed by (apply trimmed_join; auto).
        rewrite <- join_snoc by discriminate.
        apply IH. apply Forall_app. auto.
      * assert (Hne : nonempty (join space (a :: cur)) = true).
        { apply nonempty_true, (trimmed_nonempty isspace), Ht. }
        rewrite Hne.
        change s with (join space [s]) at 1.
        rewrite IH by auto. rewrite <- app_assoc. reflexivity.
Qed.

Lemma concat_wrap max_length sentences :
  forall cur, concat (wrap max_length cur sentences) = cur ++ sentences.
Proof.
  induction sentences as [|s rest IH]; intros cur.
  - destruct cur; simpl; rewrite ?app_nil_r; reflexivity.
  - cbn [wrap]. destruct cur as [|a cur].
    + rewrite IH. reflexivity.
    + destruct (len (join space (a :: cur)) + 1 + len s <=? max_length)%Z.
      * rewrite IH, <- app_assoc. reflexivity.
      * cbn [concat]. rewrite IH. reflexivity.
Qed.

Lemma wrap_groups_nonempty max_length sentences :
  forall cur, Forall (fun g => g <> []) (wrap max_length cur sentences).
Proof.
  induction sentences as [|s rest IH]; intros cur.
  - destruct cur; simpl; constructor; [discriminate | constructor].
  - cbn [wrap]. destruct cur as [|a cur]; [apply IH|].
    destruct (len (join space (a :: cur)) + 1 + len s <=? max_length)%Z.
    + apply IH.
    + constructor; [discriminate | apply IH].
Qed.

(** A group of the wrap is a single sentence or makes a chunk within the
    limit. *)
Lemma wrap_groups_bounded max_length sentences :
  forall cur,
    (length cur <= 1 \/ (len (join space cur) <= max_length)%Z) ->
    Forall (fun g => length g = 1
                     \/ (len (join space g) <= max_length)%Z)
      (wrap max_length cur sentences).
Proof.
  induction sentences as [|s rest IH]; intros cur Hcur.
  - destruct cur as [|a [|b cur]]; simpl; constructor; auto.
    destruct Hcur as [H | H]; [simpl in H; lia | auto].
  - cbn [wrap]. destruct cur as [|a cur]; [apply IH; simpl; auto|].
    destruct (len (join space (a :: cur)) + 1 + len s <=? max_length)%Z
      eqn:E.
    + apply IH. right. rewrite join_snoc by discriminate.
      rewrite !len_app. change (len space) with 1%Z.
      apply Z.leb_le in E. lia.
    + constructor; [|apply IH; simpl; auto].
      destruct cur as [|b cur]; [auto|].
      destruct Hcur as [H | H]; [simpl in H; lia | auto].
Qed.

Lemma stripped_nonempty_trimmed (l : list str) :
  Forall (fun s => trimmed isspace s = true) (stripped_nonempty l).
Proof.
  unfold stripped_nonempty. apply Forall_forall. intros s Hs.
  apply in_map_iff in Hs as [x [<- Hx]].
  apply filter_In in Hx as [_ Hx].
  destruct (strip_cases isspace x) as [E | E]; [|exact E].
  unfold strip_ws in Hx. rewrite E in Hx. discriminate.
Qed.

Lemma segment_sentences_trimmed tok text :
  Forall (fun s => trimmed isspace s = true) (segment_sentences tok text).
Proof.
  unfold segment_sentences.
  destruct (tok text); apply stripped_nonempty_trimmed.
Qed.

Lemma preprocess_for_tts_wrap
    (sent_tokenize : str -> option (list str)) (text : str) (max_length : Z) :
  preprocess_for_tts sent_tokenize text max_length
  = map (join space)
      (wrap max_length []
         (segment_sentences sent_tokenize (clean_text text))).
Proof.
  unfold preprocess_for_tts. rewrite group_sentences_finish.
  change (@nil ascii) with (join space []) at 1.
  rewrite fold_chunk_step_wrap; [reflexivity | | constructor].
  apply segment_sentences_trimmed.
Qed.

(** C5: [preprocess_for_tts] is the greedy line-wrap over the sentences of
    the cleaned text: its chunks are the groups of [wrap], each joined by
    single spaces; the groups are non-empty and, put end to end, are the
    list of sentences itself, so every sentence (each of them non-empty)
    occurs exactly once and in the original order. *)
Theorem preprocess_for_tts_greedy_wrap
    (sent_tokenize : str -> option (list str)) (text : str) (max_length : Z) :
  exists groups : list (list str),
    groups = wrap max_length []
               (segment_sentences sent_tokenize (clean_text text))
    /\ preprocess_for_tts sent_tokenize text max_length
       = map (join space) groups
    /\ concat groups = segment_sentences sent_tokenize (clean_text text)
    /\ Forall (fun g => g <> []) groups
    /\ Forall (fun s => s <> [])
         (segment_sentences sent_tokenize (clean_text text)).
Proof.
  eexists. split; [reflexivity|]. split; [|split; [|split]].
  - unfold preprocess_for_tts. rewrite group_sentences_finish.
    change (@nil ascii) with (join space []) at 1.
    rewrite fold_chunk_step_wrap; [reflexivity | | constructor].
    apply segment_sentences_trimmed.
  - apply concat_wrap.
  - apply wrap_groups_nonempty.
  - eapply Forall_impl; [|apply segment_sentences_trimmed].
    intros s. apply trimmed_nonempty.
Qed.

(** Every chunk is within the limit or is one sentence on its own. *)
Lemma preprocess_for_tts_bound
    (sent_tokenize : str -> option (list str)) (text : str) (max_length : Z) :
  Forall (fun chunk =>
            (len chunk <= max_length)%Z
            \/ In chunk (segment_sentences sent_tokenize (clean_text text)))
    (preprocess_for_tts sent_tokenize text max_length).
Proof.
  rewrite preprocess_for_tts_wrap. apply Forall_map.
  pose proof (wrap_groups_bounded max_length
                (segment_sentences sent_tokenize (clean_text text)) []
                (or_introl (Nat.le_0_l 1))) as Hb.
  pose proof (concat_wrap max_length
                (segment_sentences sent_tokenize (clean_text text)) [])
    as Hc.
  rewrite Forall_forall in *. intros g Hin.
  destruct (Hb g Hin) as [H1 | H2]; [right | left; exact H2].
  destruct g as [|s [|? ?]]; try discriminate. simpl.
  rewrite <- (app_nil_l (segment_sentences _ _)), <- Hc.
  apply in_concat. exists [s]. simpl. auto.
Qed.

(** The tokenizer that finds no sentence boundary in the text, and the one
    that raises (the fall-back splitter of [segment_sentences] then runs). *)
Definition one_sentence (text : str) : option (list str) := Some [text].
Definition unavailable (text : str) : option (list str) := None.

Definition long_sentence : str := repeat "a"%char 501.

(** C1 at a text made of one sentence of 501 characters, with the default
    limit of 500: the only chunk returned is that sentence, longer than the
    limit. *)
Theorem preprocess_for_tts_overlong_chunk :
  preprocess_for_tts one_sentence long_sentence 500 = [long_sentence]
  /\ preprocess_for_tts unavailable long_sentence 500 = [long_sentence]
  /\ (len long_sentence > 500)%Z.
Proof. repeat split; vm_compute; reflexivity. Qed.

End Chunking.

(** ** [AudioProcessor.concatenate_audio] *)

Section Concatenate.
Import AudioProcessor.
Local Open Scope R_scope.

(** The segments in order, with [gap] between consecutive ones *)
Fixpoint with_gaps (gap : audio) (segments : list audio) : audio :=
  match segments with
  | [] => []
  | [segment] => segment
  | segment :: rest => segment ++ gap ++ with_gaps gap rest
  end.


Lemma fold_left_gaps (gap : audio) (rest : list audio) :
  forall first,
    fold_left (fun result segment => result ++ gap ++ segment) rest first
    = with_gaps gap (first :: rest).
Proof.
  induction rest as [|s rest IH]; intros first.
  - reflexivity.
  - cbn [fold_left]. rewrite IH.
    change (with_gaps gap (first :: s :: rest))
      with (first ++ gap ++ with_gaps gap (s :: rest)).
    destruct rest as [|t rest].
    + reflexivity.
    + change (with_gaps gap ((first ++ gap ++ s) :: t :: rest))
        with ((first ++ gap ++ s) ++ gap ++ with_gaps gap (t :: rest)).
      change (with_gaps gap (s :: t :: rest))
        with (s ++ gap ++ with_gaps gap (t :: rest)).
      rewrite <- !app_assoc. reflexivity.
Qed.




End Concatenate.

(** ** [AudioProcessor.normalize_audio] *)

Section Normalize.
Import AudioProcessor.
Local Open Scope R_scope.

Definition square (x : R) : R := x * x.

Lemma checked_div_Some (x y : R) :
  y <> 0 -> checked_div x y = Some (x / y).
Proof.
  intros H. unfold checked_div. destruct (Req_dec_T y 0); [contradiction|].
  reflexivity.
Qed.


Lemma div_all_Some (a : audio) (d : R) :
  d <> 0 -> div_all a d = Some (map (fun x => x / d) a).
Proof.
  intros H. induction a as [|x a IH]; [reflexivity|].
  simpl. rewrite (checked_div_Some x d H), IH. reflexivity.
Qed.



Lemma sum_zero (a : audio) : Forall (fun x => x = 0) a -> sum a = 0.
Proof. induction 1 as [|x a Hx _ IH]; simpl; [reflexivity | lra]. Qed.

Lemma mean_nonempty (a : audio) :
  a <> [] -> mean a = Some (sum a / INR (length a)).
Proof.
  intros H. unfold mean. apply checked_div_Some. apply not_0_INR.
  destruct a; [congruence | discriminate].
Qed.

Lemma rms_of_nonempty (a : audio) :
  a <> [] ->
  rms_of a = Some (sqrt (sum (map square a) / INR (length a))).
Proof.
  intros H. unfold rms_of.
  change (fun x : R => x * x) with square.
  rewrite mean_nonempty by (destruct a; [congruence | discriminate]).
  rewrite length_map. reflexivity.
Qed.



Lemma np_max_nonempty (l : audio) : l <> [] -> exists m, np_max l = Some m.
Proof. destruct l; [congruence | simpl; eauto]. Qed.

(** The RMS-scaled samples *)
Definition scaled (audio_data : audio) (target_level rms : R) : audio :=
  map (fun x => x * (Rpower 10 (target_level / 20) / rms)) audio_data.

(** The two branches of [normalize_audio] on a non-empty array: every
    division succeeds, and the result is the input when the RMS is not
    positive, the scaled samples (divided by their peak when it exceeds 1)
    otherwise. *)
Lemma normalize_audio_cases (audio_data : audio) (target_level : R) :
  audio_data <> [] ->
  exists rms,
    rms_of audio_data = Some rms /\ 0 <= rms
    /\ (~ 0 < rms ->
        normalize_audio audio_data target_level = Some audio_data)
    /\ (0 < rms ->
        exists peak,
          np_max (map Rabs (scaled audio_data target_level rms)) = Some peak
          /\ normalize_audio audio_data target_level
             = Some (if Rlt_dec 1 peak
                     then map (fun x => x / peak)
                            (scaled audio_data target_level rms)
                     else scaled audio_data target_level rms)).
Proof.
  intros Hne. eexists. split; [apply rms_of_nonempty; exact Hne|].
  split; [apply sqrt_pos|].
  unfold normalize_audio. rewrite (rms_of_nonempty _ Hne).
  assert (Hlen : Nat.eqb (length audio_data) 0 = false).
  { destruct audio_data; [congruence | reflexivity]. }
  rewrite Hlen. cbn [bind].
  set (rms := sqrt (sum (map square audio_data) / INR (length audio_data))).
  split; intros Hrms.
  - destruct (Rlt_dec 0 rms); [contradiction | reflexivity].
  - destruct (Rlt_dec 0 rms); [|contradiction].
    rewrite (checked_div_Some target_level 20) by lra. cbn [bind].
    rewrite (checked_div_Some _ rms) by lra. cbn [bind].
    fold (scaled audio_data target_level rms).
    destruct (np_max_nonempty
                (map Rabs (scaled audio_data target_level rms)))
      as [peak Hpeak].
    { unfold scaled. destruct audio_data; [congruence | discriminate]. }
    exists peak. split; [exact Hpeak|]. rewrite Hpeak. cbn [bind].
    destruct (Rlt_dec 1 peak) as [Hp|Hp]; [|reflexivity].
    apply div_all_Some. lra.
Qed.

(** C4: no division of [normalize_audio] has a zero divisor, so the call
    ends with an array whatever the input; the division by the RMS is
    reached with a positive RMS only; the empty array, an array whose RMS
    is not positive, and in particular an all-zero array, are returned
    unchanged. *)
Theorem normalize_audio_no_zero_division (audio_data : audio)
    (target_level : R) :
  (exists normalized,
     normalize_audio audio_data target_level = Some normalized)
  /\ (audio_data = [] ->
      normalize_audio audio_data target_level = Some audio_data)
  /\ (forall rms, rms_of audio_data = Some rms -> ~ 0 < rms ->
      normalize_audio audio_data target_level = Some audio_data)
  /\ (Forall (fun x => x = 0) audio_data ->
      normalize_audio audio_data target_level = Some audio_data)
  /\ (forall rms, rms_of audio_data = Some rms ->
      normalize_audio audio_data target_level <> Some audio_data ->
      0 < rms /\ checked_div (Rpower 10 (target_level / 20)) rms <> None).
Proof.
  destruct audio_data as [|x a] eqn:Ea.
  - split; [exists []; reflexivity|].
    split; [reflexivity|]. split; [reflexivity|]. split; [reflexivity|].
    intros rms _ H. exfalso. apply H. reflexivity.
  - rewrite <- Ea.
    assert (Hne : audio_data <> []) by (rewrite Ea; discriminate).
    destruct (normalize_audio_cases audio_data target_level Hne)
      as [rms [Hrms [Hpos [Hz Hp]]]].
    assert (Hsame : forall rms', rms_of audio_data = Some rms' ->
                                 ~ 0 < rms' ->
              normalize_audio audio_data target_level = Some audio_data).
    { intros rms' H1 H2. rewrite Hrms in H1. injection H1 as <-. auto. }
    split; [|split; [|split; [|split]]].
    + destruct (Rlt_dec 0 rms) as [H | H].
      * destruct (Hp H) as [peak [_ E]]. eauto.
      * eauto.
    + intros E. congruence.
    + exact Hsame.
    + intros Hzero. apply (Hsame rms Hrms).
      rewrite (rms_of_nonempty _ Hne) in Hrms. injection Hrms as <-.
      rewrite sum_zero.
      * unfold Rdiv. rewrite Rmult_0_l, sqrt_0. lra.
      * apply Forall_map. eapply Forall_impl; [|exact Hzero].
        intros y ->. unfold square. lra.
    + intros rms' H1 H2.
      destruct (Rlt_dec 0 rms') as [H | H].
      * split; [exact H|]. rewrite checked_div_Some by lra. discriminate.
      * exfalso. apply H2. eauto.
Qed.

Lemma normalize_audio_no_zero_division_witness :
  normalize_audio [0; 0] (-3) = Some [0; 0].
Proof.
  apply (normalize_audio_no_zero_division [0; 0] (-3)).
  repeat constructor.
Defined.


End Normalize.

(** ** [AudioProcessor.apply_fade] *)

Section Fade.
Import AudioProcessor.
Local Open Scope R_scope.












End Fade.

(** ** [TextToAudioConverter.convert_text] *)

Section ConvertText.
Import Py TextToAudioConverter.

(** A computation that writes no file *)
Definition quiet {A : Type} (m : M A) : Prop := forall w, snd (m w) = w.

(** A computation that writes one file, the one whose path it returns, and
    none when it returns [None] or raises *)
Definition saves (m : M (option str)) : Prop :=
  forall w,
    match m w with
    | (Returned (Some p), w') => exists data, w' = (p, data) :: w
    | (_, w') => w' = w
    end.

Lemma quiet_ret {A : Type} (a : A) : quiet (ret a).
Proof. intros w. reflexivity. Qed.

Lemma quiet_raise {A : Type} (e : exn) : quiet (@raise A e).
Proof. intros w. reflexivity. Qed.

Lemma quiet_lift {A : Type} (o : outcome A) : quiet (lift o).
Proof. intros w. reflexivity. Qed.

Lemma quiet_of_option {A : Type} (msg : string) (o : option A) :
  quiet (of_option msg o).
Proof. destruct o; [apply quiet_ret | apply quiet_raise]. Qed.

Lemma quiet_bind {A B : Type} (m : M A) (k : A -> M B) :
  quiet m -> (forall a, quiet (k a)) -> quiet (bind m k).
Proof.
  intros Hm Hk w. unfold bind. specialize (Hm w).
  destruct (m w) as [[a | e] w1]; simpl in Hm; subst w1.
  - apply Hk.
  - reflexivity.
Qed.

Lemma saves_ret_None : saves (ret None).
Proof. intros w. reflexivity. Qed.

Lemma saves_bind {A : Type} (m : M A) (k : A -> M (option str)) :
  quiet m -> (forall a, saves (k a)) -> saves (bind m k).
Proof.
  intros Hm Hk w. unfold bind. specialize (Hm w).
  destruct (m w) as [[a | e] w1]; simpl in Hm; subst w1.
  - apply Hk.
  - reflexivity.
Qed.

Section Env.

Variable sent_tokenize : str -> option (list str).
Variable get_sample_rate : outcome Z.
Variable synthesize_speech : str -> outcome (option audio).
Variable apply_noise_reduction : audio -> Z -> outcome audio.
Variable timestamp : str.
Variable output_path : str -> str -> str.
Variable sf_write_error : str -> option exn.
Variable cfg : config.

Lemma quiet_synthesize_chunks (chunks : list str) :
  quiet (synthesize_chunks synthesize_speech chunks).
Proof.
  induction chunks as [|c chunks IH]; [apply quiet_ret|].
  cbn [synthesize_chunks]. apply quiet_bind; [apply quiet_lift|].
  intros a. apply quiet_bind; [exact IH|]. intros l. apply quiet_ret.
Qed.

Lemma synthesize_chunks_nothing (chunks : list str) (w : files) :
  (forall chunk, In chunk chunks -> synthesize_speech chunk = Returned None) ->
  synthesize_chunks synthesize_speech chunks w = (Returned [], w).
Proof.
  induction chunks as [|c chunks IH]; intros H; [reflexivity|].
  cbn [synthesize_chunks]. unfold bind, lift.
  rewrite (H c (or_introl eq_refl)).
  rewrite IH by (intros; apply H; right; assumption). reflexivity.
Qed.

Lemma quiet_post_process (a : audio) (sample_rate : Z) :
  quiet (_post_process_audio apply_noise_reduction cfg a sample_rate).
Proof.
  unfold _post_process_audio. apply quiet_bind.
  - destruct (noise_reduction cfg); [apply quiet_lift | apply quiet_ret].
  - intros b. apply quiet_ret.
Qed.

Lemma save_audio_saves (a : audio) (filename : str) (sample_rate : Z)
    (format : str) (normalize : bool) :
  saves (bind (save_audio output_path sf_write_error a filename sample_rate
                 format normalize)
           (fun p => ret (Some p))).
Proof.
  intros w. unfold save_audio.
  destruct (Nat.eqb (length a) 0); [reflexivity|].
  unfold bind at 1 2.
  set (m := if normalize
            then of_option "division by zero"
                   (AudioProcessor.normalize_audio a (-3))
            else ret a).
  assert (Hq : quiet m).
  { unfold m. destruct normalize; [apply quiet_of_option | apply quiet_ret]. }
  specialize (Hq w). destruct (m w) as [[b | e] w1]; simpl in Hq; subst w1;
    [|reflexivity].
  unfold try_except, bind, sf_write.
  destruct (sf_write_error (output_path filename format)); simpl.
  - reflexivity.
  - eauto.
Qed.

Lemma saves_convert_text_try (text : str) (output_filename : option str) :
  saves (convert_text_try sent_tokenize get_sample_rate synthesize_speech
           apply_noise_reduction timestamp output_path sf_write_error cfg
           text output_filename).
Proof.
  unfold convert_text_try.
  destruct (negb (TextProcessor.validate_text text)); [apply saves_ret_None|].
  cbv zeta.
  destruct (Nat.eqb _ 0); [apply saves_ret_None|].
  apply saves_bind; [apply quiet_lift|]. intros sample_rate.
  apply saves_bind; [apply quiet_synthesize_chunks|]. intros segments.
  destruct segments as [|first rest]; [apply saves_ret_None|].
  apply saves_bind.
  { destruct ((1 <? length (first :: rest))%nat && concatenate_segments cfg);
      [apply quiet_of_option | apply quiet_ret]. }
  intros combined. apply saves_bind; [apply quiet_post_process|].
  intros processed. apply save_audio_saves.
Qed.

(** C3: [convert_text] always ends by returning, never by raising. It
    returns [None] for an empty or whitespace-only text, for a text that
    fails validation, when the text gives no chunk, when no chunk is
    synthesized, and when the body of its [try] statement raises. When it
    returns a path, the file of that path has been written by this call. *)
Theorem convert_text_never_raises (text : str) (output_filename : option str)
    (w : files) :
  exists result w',
    convert_text sent_tokenize get_sample_rate synthesize_speech
      apply_noise_reduction timestamp output_path sf_write_error cfg
      text output_filename w = (Returned result, w')
    /\ (forallb isspace text = true -> result = None)
    /\ (TextProcessor.validate_text text = false -> result = None)
    /\ (TextProcessor.preprocess_for_tts sent_tokenize text
          (max_text_length cfg) = [] -> result = None)
    /\ ((forall chunk,
           In chunk (TextProcessor.preprocess_for_tts sent_tokenize text
                       (max_text_length cfg)) ->
           synthesize_speech chunk = Returned None) -> result = None)
    /\ (forall e w1,
          convert_text_try sent_tokenize get_sample_rate synthesize_speech
            apply_noise_reduction timestamp output_path sf_write_error cfg
            text output_filename w = (Raised e, w1) -> result = None)
    /\ (forall path, result = Some path ->
          exists data, w' = (path, data) :: w).
Proof.
  unfold convert_text.
  destruct (negb (nonempty text) || negb (nonempty (strip_ws text))) eqn:Eg.
  { exists None, w. split; [reflexivity|].
    repeat split; try reflexivity; discriminate. }
  pose proof (saves_convert_text_try text output_filename w) as Hs.
  unfold try_except.
  destruct (convert_text_try sent_tokenize get_sample_rate synthesize_speech
              apply_noise_reduction timestamp output_path sf_write_error cfg
              text output_filename w) as [[r | e] w1] eqn:Et.
  2:{ exists None, w1. split; [reflexivity|].
      repeat split; try reflexivity; discriminate. }
  exists r, w1. split; [reflexivity|].
  apply orb_false_iff in Eg as [Eg1 Eg2].
  apply negb_false_iff in Eg1, Eg2.
  split; [|split; [|split; [|split; [|split]]]].
  - intros Hb. apply (strip_nil isspace) in Hb. unfold strip_ws in Eg2.
    rewrite Hb in Eg2. discriminate.
  - intros Hv. unfold convert_text_try in Et. rewrite Hv in Et.
    simpl in Et. injection Et as <- _. reflexivity.
  - intros Hp. unfold convert_text_try in Et.
    destruct (negb (TextProcessor.validate_text text)).
    + injection Et as <- _. reflexivity.
    + cbv zeta in Et. rewrite Hp in Et. injection Et as <- _. reflexivity.
  - intros Hn. unfold convert_text_try in Et.
    destruct (negb (TextProcessor.validate_text text)).
    + injection Et as <- _. reflexivity.
    + cbv zeta in Et. destruct (Nat.eqb _ 0).
      * injection Et as <- _. reflexivity.
      * unfold bind at 1 in Et. unfold lift in Et.
        destruct get_sample_rate as [rate | e]; [|discriminate].
        unfold bind at 1 in Et.
        rewrite (synthesize_chunks_nothing _ w Hn) in Et.
        injection Et as <- _. reflexivity.
  - intros e w2 H. discriminate.
  - intros path ->. exact Hs.
Qed.

End Env.

Lemma convert_text_never_raises_witness :
  exists w',
    convert_text unavailable (Returned 16000%Z) (fun _ => Returned None)
      (fun a _ => Returned a) (of_string "20240101_000000")
      (fun name format => name ++ of_string "." ++ format) (fun _ => None)
      default_config (of_string "   ") None [] = (Returned None, w').
Proof.
  destruct (convert_text_never_raises unavailable (Returned 16000%Z)
              (fun _ => Returned None) (fun a _ => Returned a)
              (of_string "20240101_000000")
              (fun name format => name ++ of_string "." ++ format)
              (fun _ => None) default_config (of_string "   ") None [])
    as [result [w' [H1 [H2 _]]]].
  exists w'. rewrite H1, (H2 eq_refl). reflexivity.
Defined.

End ConvertText.

(** ** [TextProcessor.clean_text] *)

Section CleanText.
Import Py TextProcessor.




(** *** Characters of the results *)

Section Closure.

Variable P : ascii -> bool.











Lemma forallb_lstrip f s : forallb P s = true -> forallb P (lstrip f s) = true.
Proof.
  intros H. destruct (lstrip_suffix f s) as [p [Hs _]].
  rewrite Hs, forallb_app in H. apply andb_true_iff in H. tauto.
Qed.

Lemma forallb_strip f s : forallb P s = true -> forallb P (strip f s) = true.
Proof.
  intros H. unfold strip, rstrip. rewrite forallb_rev.
  apply forallb_lstrip. rewrite forallb_rev. apply forallb_lstrip. exact H.
Qed.



Hypothesis P_blank : P " "%char = true.
Hypothesis P_numbers : Forall (fun kv => forallb P (snd kv) = true) numbers.
Hypothesis P_abbreviations :
  Forall (fun kv => forallb P (snd kv) = true) abbreviations.
Hypothesis P_replacements :
  Forall (fun kv => forallb P (snd kv) = true) replacements.


End Closure.




(** *** Whitespace of the result *)








(** *** Number words *)






(** *** [str.replace] *)









End CleanText.

(** * Further properties of the text processor *)

Section SentencesMore.
Import Py TextProcessor.

Lemma split_runs_no_separator f s :
  forall cur insep,
    forallb (fun c => negb (f c)) cur = true ->
    Forall (fun piece => forallb (fun c => negb (f c)) piece = true)
      (split_runs f cur insep s).
Proof.
  induction s as [|c s IH]; intros cur insep Hcur.
  - simpl. constructor; [|constructor]. rewrite forallb_rev. exact Hcur.
  - simpl. destruct (f c) eqn:E; [destruct insep|].
    + apply IH. exact Hcur.
    + constructor; [rewrite forallb_rev; exact Hcur | apply IH; reflexivity].
    + apply IH. simpl. rewrite E. exact Hcur.
Qed.

(** [segment_sentences] returns sentences that are non-empty and have no
    whitespace at either end, whatever the tokenizer returns; when the
    tokenizer raises, no sentence returned by the fall-back splitter
    contains a full stop, an exclamation mark or a question mark. *)
Theorem segment_sentences_shape
    (sent_tokenize : str -> option (list str)) (text : str) :
  Forall (fun s => s <> [] /\ strip_ws s = s
                   /\ hd_ok isspace s = true /\ hd_ok isspace (rev s) = true)
    (segment_sentences sent_tokenize text)
  /\ (sent_tokenize text = None ->
      Forall (fun s => forallb (fun c => negb (issentence_end c)) s = true)
        (segment_sentences sent_tokenize text)).
Proof.
  split.
  - eapply Forall_impl; [|apply segment_sentences_trimmed].
    intros s Hs. split; [exact (trimmed_nonempty isspace s Hs)|].
    split; [apply strip_trimmed; exact Hs|].
    apply andb_true_iff. exact Hs.
  - intros Hnone. unfold segment_sentences. rewrite Hnone.
    unfold stripped_nonempty. apply Forall_map.
    apply Forall_forall. intros x Hx. apply filter_In in Hx as [Hx _].
    unfold strip_ws. apply forallb_strip.
    pose proof (split_runs_no_separator issentence_end text [] false eq_refl)
      as H.
    rewrite Forall_forall in H. apply H. exact Hx.
Qed.

Lemma segment_sentences_shape_witness :
  Forall (fun s => forallb (fun c => negb (issentence_end c)) s = true)
    (segment_sentences unavailable (of_string "Hi there. How are you?")).
Proof.
  apply (segment_sentences_shape unavailable
           (of_string "Hi there. How are you?")).
  reflexivity.
Defined.

End SentencesMore.

Section ChunkingMore.
Import Py TextProcessor.

Lemma join_cons_nonempty sep (a : str) (l : list str) :
  l <> [] -> join sep (a :: l) = a ++ sep ++ join sep l.
Proof. destruct l; [congruence | reflexivity]. Qed.

Lemma join_app sep (a b : list str) :
  a <> [] -> b <> [] ->
  join sep (a ++ b) = join sep a ++ sep ++ join sep b.
Proof.
  induction a as [|x a IH]; [congruence|]. intros _ Hb.
  destruct a as [|y a].
  - simpl app. apply join_cons_nonempty. exact Hb.
  - change ((x :: y :: a) ++ b) with (x :: ((y :: a) ++ b)).
    rewrite join_cons_nonempty by discriminate.
    rewrite IH by (discriminate || exact Hb).
    rewrite (join_cons_nonempty sep x (y :: a)) by discriminate.
    rewrite <- !app_assoc. reflexivity.
Qed.

Lemma join_concat sep (groups : list (list str)) :
  Forall (fun g => g <> []) groups ->
  join sep (map (join sep) groups) = join sep (concat groups).
Proof.
  induction 1 as [|g groups Hg Hgroups IH]; [reflexivity|].
  destruct groups as [|g' groups].
  - simpl. rewrite app_nil_r. reflexivity.
  - cbn [map concat].
    rewrite join_cons_nonempty by discriminate.
    cbn [map concat] in IH. rewrite IH.
    symmetry. apply join_app; [exact Hg|].
    inversion Hgroups as [|? ? Hg' _]; subst.
    destruct g'; [congruence | discriminate].
Qed.

Lemma length_wrap max_length sentences :
  forall cur,
    (length (wrap max_length cur sentences)
     <= (match cur with [] => 0 | _ :: _ => 1 end) + length sentences)%nat.
Proof.
  induction sentences as [|s rest IH]; intros cur.
  - destruct cur; simpl; lia.
  - cbn [wrap]. destruct cur as [|a cur].
    + specialize (IH [s]). simpl in *. lia.
    + destruct (len (join space (a :: cur)) + 1 + len s <=? max_length)%Z.
      * specialize (IH ((a :: cur) ++ [s])). simpl in *. lia.
      * specialize (IH [s]). simpl in *. lia.
Qed.

(** The chunks of [preprocess_for_tts], joined by single spaces, are the
    sentences of the cleaned text joined by single spaces: no text is
    lost, added or reordered. There are at most as many chunks as
    sentences, and no chunk exactly when there is no sentence. *)
Theorem preprocess_for_tts_text
    (sent_tokenize : str -> option (list str)) (text : str) (max_length : Z) :
  join space (preprocess_for_tts sent_tokenize text max_length)
  = join space (segment_sentences sent_tokenize (clean_text text))
  /\ (length (preprocess_for_tts sent_tokenize text max_length)
      <= length (segment_sentences sent_tokenize (clean_text text)))%nat
  /\ (preprocess_for_tts sent_tokenize text max_length = []
      <-> segment_sentences sent_tokenize (clean_text text) = []).
Proof.
  rewrite preprocess_for_tts_wrap.
  set (sentences := segment_sentences sent_tokenize (clean_text text)).
  pose proof (concat_wrap max_length sentences []) as Hc. simpl in Hc.
  pose proof (wrap_groups_nonempty max_length sentences []) as Hg.
  split; [|split].
  - rewrite join_concat by exact Hg. rewrite Hc. reflexivity.
  - rewrite length_map. apply (length_wrap max_length sentences []).
  - split.
    + intros E. apply map_eq_nil in E. rewrite E in Hc. symmetry. exact Hc.
    + intros E. rewrite E. reflexivity.
Qed.

(** Every chunk is non-empty and has no whitespace at either end. *)
Theorem preprocess_for_tts_chunks_trimmed
    (sent_tokenize : str -> option (list str)) (text : str) (max_length : Z) :
  Forall (fun chunk => chunk <> [] /\ strip_ws chunk = chunk)
    (preprocess_for_tts sent_tokenize text max_length).
Proof.
  rewrite preprocess_for_tts_wrap. apply Forall_map.
  set (sentences := segment_sentences sent_tokenize (clean_text text)).
  pose proof (concat_wrap max_length sentences []) as Hc. simpl in Hc.
  pose proof (wrap_groups_nonempty max_length sentences []) as Hg.
  pose proof (segment_sentences_trimmed sent_tokenize (clean_text text))
    as Ht. fold sentences in Ht.
  rewrite Forall_forall in *. intros g Hin.
  assert (Hgt : trimmed isspace (join space g) = true).
  { apply trimmed_join_list; [apply Hg; exact Hin|].
    apply Forall_forall. intros s Hs. apply Ht. rewrite <- Hc.
    apply in_concat. eauto. }
  split; [exact (trimmed_nonempty isspace _ Hgt)|].
  apply strip_trimmed. exact Hgt.
Qed.

Lemma len_nonneg (s : str) : (0 <= len s)%Z.
Proof. unfold len. lia. Qed.

Lemma len_join_app_le (a b : list str) :
  (len (join space a) <= len (join space (a ++ b)))%Z.
Proof.
  destruct a as [|x a]; [apply len_nonneg|].
  destruct b as [|y b]; [rewrite app_nil_r; lia|].
  rewrite join_app by discriminate. rewrite !len_app.
  pose proof (len_nonneg (join space (y :: b))).
  change (len space) with 1%Z. lia.
Qed.

Lemma wrap_fits max_length sentences :
  forall cur,
    cur ++ sentences <> [] ->
    (len (join space (cur ++ sentences)) <= max_length)%Z ->
    wrap max_length cur sentences = [cur ++ sentences].
Proof.
  induction sentences as [|s rest IH]; intros cur Hne Hfit.
  - rewrite app_nil_r in *. destruct cur; [congruence | reflexivity].
  - cbn [wrap]. destruct cur as [|a cur].
    + apply (IH [s]); [discriminate | exact Hfit].
    + assert (E : ((a :: cur) ++ s :: rest) = ((a :: cur) ++ [s]) ++ rest).
      { rewrite <- app_assoc. reflexivity. }
      assert (Hs : (len (join space (a :: cur)) + 1 + len s
                    <= max_length)%Z).
      { pose proof (len_join_app_le ((a :: cur) ++ [s]) rest) as Hle.
        rewrite <- E in Hle. rewrite join_snoc in Hle by discriminate.
        rewrite !len_app in Hle. change (len space) with 1%Z in Hle. lia. }
      apply Z.leb_le in Hs. rewrite Hs. rewrite E. apply IH.
      * destruct cur; discriminate.
      * rewrite <- E. exact Hfit.
Qed.

(** When the sentences of the cleaned text, joined by single spaces, fit
    within [max_length], [preprocess_for_tts] returns them as one chunk. *)
Theorem preprocess_for_tts_single_chunk
    (sent_tokenize : str -> option (list str)) (text : str) (max_length : Z) :
  segment_sentences sent_tokenize (clean_text text) <> [] ->
  (len (join space (segment_sentences sent_tokenize (clean_text text)))
   <= max_length)%Z ->
  preprocess_for_tts sent_tokenize text max_length
  = [join space (segment_sentences sent_tokenize (clean_text text))].
Proof.
  intros Hne Hfit. rewrite preprocess_for_tts_wrap.
  rewrite (wrap_fits max_length _ []); [reflexivity | exact Hne | exact Hfit].
Qed.

Lemma preprocess_for_tts_single_chunk_witness :
  preprocess_for_tts unavailable (of_string "Hello! How are you?") 500
  = [of_string "hello how are you"].
Proof.
  rewrite (preprocess_for_tts_single_chunk unavailable
             (of_string "Hello! How are you?") 500).
  - vm_compute. reflexivity.
  - vm_compute. discriminate.
  - vm_compute. discriminate.
Defined.

End ChunkingMore.

Section BlankText.
Import Py TextProcessor.

Lemma lower_char_space c : isspace c = true -> lower_char c = c.
Proof.
  destruct c as [[] [] [] [] [] [] [] []]; intros H;
    try reflexivity; discriminate H.
Qed.

Lemma lower_blank s : forallb isspace s = true -> lower s = s.
Proof.
  induction s as [|c s IH]; [reflexivity|]. simpl. intros H.
  apply andb_true_iff in H as [Hc Hs].
  rewrite (lower_char_space c Hc), (IH Hs). reflexivity.
Qed.

Lemma sub_runs_all f rep s :
  forallb f s = true ->
  sub_runs f rep true s = []
  /\ (s <> [] -> sub_runs f rep false s = rep).
Proof.
  induction s as [|c s IH]; [split; [reflexivity | congruence]|].
  simpl. intros H. apply andb_true_iff in H as [Hc Hs].
  rewrite Hc. destruct (IH Hs) as [H1 _]. rewrite H1.
  split; [reflexivity|]. intros _. apply app_nil_r.
Qed.

(** A text made of whitespace only is cleaned to the empty string, and
    [preprocess_for_tts] returns no chunk for it (the tokenizer finding no
    sentence in the empty string, or raising). *)
Theorem clean_text_blank (text : str) :
  forallb isspace text = true ->
  clean_text text = []
  /\ (forall sent_tokenize max_length,
        sent_tokenize [] = None \/ sent_tokenize [] = Some [] ->
        preprocess_for_tts sent_tokenize text max_length = []).
Proof.
  intros Hb.
  assert (Hc : clean_text text = []).
  { destruct text as [|c text]; [reflexivity|].
    unfold clean_text. cbv zeta. rewrite (lower_blank _ Hb).
    destruct (sub_runs_all isspace (of_string " ") (c :: text) Hb)
      as [_ H].
    rewrite H by discriminate. vm_compute. reflexivity. }
  split; [exact Hc|].
  intros tok max_length Htok. unfold preprocess_for_tts. rewrite Hc.
  unfold segment_sentences. destruct Htok as [-> | ->]; reflexivity.
Qed.

Lemma clean_text_blank_witness :
  clean_text (of_string "   ") = []
  /\ preprocess_for_tts unavailable (of_string "   ") 500 = [].
Proof.
  destruct (clean_text_blank (of_string "   ") eq_refl) as [H1 H2].
  split; [exact H1|]. apply H2. left. reflexivity.
Defined.

End BlankText.

(** * Further properties of the Q&A dictionary *)

Section QAMore.
Import Py QATextToAudio.

Lemma get_set_item_same k v db : get k (set_item k v db) = Some v.
Proof.
  induction db as [|[k' v'] db IH]; simpl.
  - rewrite eqs_refl. reflexivity.
  - destruct (eqs k k') eqn:E; simpl; rewrite E; [reflexivity | exact IH].
Qed.

Lemma get_set_item_other k k0 v db :
  k0 <> k -> get k0 (set_item k v db) = get k0 db.
Proof.
  intros Hne. induction db as [|[k' v'] db IH]; simpl.
  - destruct (eqs k0 k) eqn:E; [|reflexivity].
    apply eqs_true in E. contradiction.
  - destruct (eqs k k') eqn:E; simpl.
    + apply eqs_true in E. subst k'.
      destruct (eqs k0 k) eqn:E0; [|reflexivity].
      apply eqs_true in E0. contradiction.
    + rewrite IH. reflexivity.
Qed.

Lemma keys_set_item k v db :
  map fst (set_item k v db)
  = if existsb (eqs k) (map fst db) then map fst db
    else map fst db ++ [k].
Proof.
  induction db as [|[k' v'] db IH]; simpl; [reflexivity|].
  destruct (eqs k k') eqn:E; simpl; [reflexivity|].
  rewrite IH. destruct (existsb (eqs k) (map fst db)); reflexivity.
Qed.

Lemma existsb_eqs_In k keys : existsb (eqs k) keys = true <-> In k keys.
Proof.
  rewrite existsb_exists. split.
  - intros [x [H1 H2]]. apply eqs_true in H2. congruence.
  - intros H. exists k. split; [exact H | apply eqs_refl].
Qed.

(** After [add_qa_pair(question, answer)], [find_answer] returns that
    answer for the question, and for every question with the same
    normalized form. *)
Theorem find_answer_after_add (db : database) (question answer q : str) :
  normalize_question q = normalize_question question ->
  find_answer (add_qa_pair db question answer) q = Some answer.
Proof.
  intros E. unfold find_answer, add_qa_pair. rewrite E.
  rewrite get_set_item_same. reflexivity.
Qed.

Lemma find_answer_after_add_witness :
  find_answer
    (add_qa_pair default_qa_database (of_string "What is TTS?")
       (of_string "Text to speech."))
    (of_string "  what is tts??")
  = Some (of_string "Text to speech.").
Proof.
  apply find_answer_after_add. vm_compute. reflexivity.
Defined.

(** [add_qa_pair] keeps the keys distinct, adds at most one entry (none
    when the normalized question is already a key, its answer being
    replaced), and leaves the exact matches of the other questions as they
    were. *)
Theorem add_qa_pair_frame (db : database) (question answer : str) :
  (NoDup (map fst db) -> NoDup (map fst (add_qa_pair db question answer)))
  /\ length (add_qa_pair db question answer)
     = (length db
        + (if existsb (eqs (normalize_question question)) (map fst db)
           then 0 else 1))%nat
  /\ (forall q,
        normalize_question q <> normalize_question question ->
        get (normalize_question q) (add_qa_pair db question answer)
        = get (normalize_question q) db)
  /\ (forall q a,
        normalize_question q <> normalize_question question ->
        get (normalize_question q) db = Some a ->
        find_answer (add_qa_pair db question answer) q = Some a).
Proof.
  unfold add_qa_pair. set (k := normalize_question question).
  split; [|split; [|split]].
  - intros Hnd. rewrite keys_set_item.
    destruct (existsb (eqs k) (map fst db)) eqn:E; [exact Hnd|].
    apply NoDup_app; [exact Hnd | repeat constructor; intros [] |].
    intros x Hx [Hk | []]. subst x.
    apply existsb_eqs_In in Hx. congruence.
  - rewrite <- (length_map fst (set_item k answer db)), keys_set_item.
    destruct (existsb (eqs k) (map fst db)).
    + rewrite length_map. lia.
    + rewrite length_app, length_map. simpl. lia.
  - intros q Hne. apply get_set_item_other. exact Hne.
  - intros q a Hne Hget. unfold find_answer.
    rewrite get_set_item_other by exact Hne. rewrite Hget. reflexivity.
Qed.

Lemma add_qa_pair_frame_witness :
  find_answer
    (add_qa_pair default_qa_database (of_string "What is TTS?")
       (of_string "Text to speech."))
    (of_string "What is deep learning?")
  = get (of_string "what is deep learning") default_qa_database.
Proof.
  destruct (add_qa_pair_frame default_qa_database (of_string "What is TTS?")
              (of_string "Text to speech.")) as [_ [_ [_ H]]].
  destruct (get (of_string "what is deep learning") default_qa_database)
    as [a|] eqn:E; [|vm_compute in E; discriminate E].
  apply H; [vm_compute; discriminate | exact E].
Defined.

(** A question whose normalized form is empty (a question mark alone, for
    instance) is contained in every key: unless the empty string is itself
    a key, [find_answer] returns the answer of the first entry. *)
Theorem find_answer_empty_question
    (db : database) (k a : str) (question : str) :
  normalize_question question = [] ->
  ~ In [] (map fst ((k, a) :: db)) ->
  find_answer ((k, a) :: db) question = Some a.
Proof.
  intros E Hk. unfold find_answer. rewrite E.
  apply get_None in Hk. rewrite Hk. cbn [partial_match].
  destruct k; reflexivity.
Qed.

Lemma find_answer_empty_question_witness :
  find_answer default_qa_database (of_string " ? ")
  = Some (snd (hd ([], []) default_qa_database)).
Proof.
  unfold default_qa_database. simpl map.
  rewrite (find_answer_empty_question _ _ _ (of_string " ? ")).
  - reflexivity.
  - vm_compute. reflexivity.
  - vm_compute. intros H. repeat (destruct H as [H | H]; [discriminate H|]).
    exact H.
Defined.



End QAMore.

(** * Further properties of the audio processor *)

Section FadeMore.
Import AudioProcessor.
Local Open Scope R_scope.























End FadeMore.

Section ConcatenateMore.
Import AudioProcessor.
Local Open Scope R_scope.

Lemma concatenate_audio_Some (audio_segments : list audio)
    (gap_ms sample_rate : Z) (result : audio) :
  concatenate_audio audio_segments gap_ms sample_rate = Some result ->
  result = with_gaps (repeat 0 (Z.to_nat (ms_to_samples gap_ms sample_rate)))
             audio_segments.
Proof.
  unfold concatenate_audio.
  destruct audio_segments as [|first [|second rest]].
  - intros H. injection H as <-. reflexivity.
  - intros H. injection H as <-. reflexivity.
  - destruct (ms_to_samples gap_ms sample_rate <? 0)%Z; [discriminate|].
    intros H. injection H as <-.
    exact (fold_left_gaps _ (second :: rest) first).
Qed.

Lemma with_gaps_Forall (P : R -> Prop) (gap : audio) (segments : list audio) :
  Forall P gap -> Forall (Forall P) segments ->
  Forall P (with_gaps gap segments).
Proof.
  intros Hgap. induction 1 as [|s rest Hs Hrest IH]; [constructor|].
  destruct rest as [|t rest]; [exact Hs|].
  change (with_gaps gap (s :: t :: rest))
    with (s ++ gap ++ with_gaps gap (t :: rest)).
  apply Forall_app. split; [exact Hs|].
  apply Forall_app. split; [exact Hgap | exact IH].
Qed.

Lemma with_gaps_nil (segments : list audio) :
  with_gaps [] segments = concat segments.
Proof.
  induction segments as [|s rest IH]; [reflexivity|].
  destruct rest as [|t rest]; [simpl; rewrite app_nil_r; reflexivity|].
  change (with_gaps [] (s :: t :: rest))
    with (s ++ [] ++ with_gaps [] (t :: rest)).
  rewrite IH. reflexivity.
Qed.

Lemma with_gaps_segment (gap : audio) (segments : list audio) (seg : audio) :
  In seg segments ->
  exists before after, with_gaps gap segments = before ++ seg ++ after.
Proof.
  induction segments as [|s rest IH]; [intros []|].
  intros [-> | Hin].
  - destruct rest as [|t rest].
    + exists [], []. simpl. rewrite app_nil_r. reflexivity.
    + exists [], (gap ++ with_gaps gap (t :: rest)). reflexivity.
  - destruct rest as [|t rest]; [destruct Hin|].
    destruct (IH Hin) as [before [after E]].
    exists (s ++ gap ++ before), after.
    change (with_gaps gap (s :: t :: rest))
      with (s ++ gap ++ with_gaps gap (t :: rest)).
    rewrite E, <- !app_assoc. reflexivity.
Qed.

(** Whatever [concatenate_audio] returns contains every segment as a
    contiguous run of samples, stays within any amplitude bound the
    segments stay within, and is the plain concatenation of the segments
    when the gap has no sample. *)
Theorem concatenate_audio_samples (audio_segments : list audio)
    (gap_ms sample_rate : Z) (result : audio) :
  concatenate_audio audio_segments gap_ms sample_rate = Some result ->
  (forall seg, In seg audio_segments ->
     exists before after, result = before ++ seg ++ after)
  /\ (forall bound, 0 <= bound ->
        Forall (Forall (fun x => Rabs x <= bound)) audio_segments ->
        Forall (fun x => Rabs x <= bound) result)
  /\ (ms_to_samples gap_ms sample_rate = 0%Z ->
      result = concat audio_segments).
Proof.
  intros H. apply concatenate_audio_Some in H. subst result.
  split; [|split].
  - intros seg Hin. apply with_gaps_segment. exact Hin.
  - intros bound Hb Hsegs. apply with_gaps_Forall; [|exact Hsegs].
    apply Forall_forall. intros x Hx. apply repeat_spec in Hx. subst x.
    rewrite Rabs_R0. exact Hb.
  - intros ->. apply with_gaps_nil.
Qed.

Lemma concatenate_audio_samples_witness :
  Forall (fun x => Rabs x <= 1) [1; 0; 0; -1].
Proof.
  apply (concatenate_audio_samples [[1]; [-1]] 2 1000 [1; 0; 0; -1] eq_refl).
  - lra.
  - apply Forall_cons; [|apply Forall_cons; [|apply Forall_nil]].
    + apply Forall_cons; [|apply Forall_nil]. rewrite Rabs_R1. lra.
    + apply Forall_cons; [|apply Forall_nil].
      unfold Rabs. destruct (Rcase_abs (-1)); lra.
Defined.

End ConcatenateMore.

Section AudioInfo.
Import AudioProcessor.
Local Open Scope R_scope.





End AudioInfo.

(** * Further properties of the converter *)

Section SaveAudio.
Import Py TextToAudioConverter.
Local Open Scope R_scope.



Variable output_path : str -> str -> str.
Variable sf_write_error : str -> option exn.



End SaveAudio.


Section ConvertSuccess.
Import Py TextToAudioConverter.
Local Open Scope R_scope.

Variable sent_tokenize : str -> option (list str).
Variable get_sample_rate : outcome Z.
Variable synthesize_speech : str -> outcome (option audio).
Variable apply_noise_reduction : audio -> Z -> outcome audio.
Variable timestamp : str.
Variable output_path : str -> str -> str.
Variable sf_write_error : str -> option exn.
Variable cfg : config.





End ConvertSuccess.


Section Batch.
Import Py TextToAudioConverter.

Variable sent_tokenize : str -> option (list str).
Variable get_sample_rate : outcome Z.
Variable synthesize_speech : str -> outcome (option audio).
Variable apply_noise_reduction : audio -> Z -> outcome audio.
Variable timestamp : str.
Variable output_path : str -> str -> str.
Variable sf_write_error : str -> option exn.
Variable cfg : config.




End Batch.

